(** * GenKS: key conversion pipeline (CompressionKey/src/GenKS.py)

    A shallow embedding of the Python module [GenKS.py]: the two BIP38
    stubs, the WIF encoder, the public key deriver, the address generator
    and the statements at module level, together with models of the
    library calls the module makes ([hashlib], [base58], [binascii],
    [ecdsa]). *)

From Stdlib Require Import Ascii String.
From Stdlib Require Import ZArith List Lia Bool.
From Stdlib Require Import Strings.Byte.
Import ListNotations.

#[local] Set Warnings "-register-all".

Local Open Scope Z_scope.

(** ** Python values and exceptions *)

(** The dynamically typed values that flow through the module. *)
Inductive value : Type :=
| VNone
| VBool (b : bool)
| VBytes (bs : list byte)
| VStr (s : string)
| VTuple (vs : list value).

(** The exception classes the modelled calls can raise. *)
Inductive exn : Type :=
| TypeError
| ValueError
| IndexError
| AssertionError
| BinasciiError
| MalformedPointError.

(** The name of an exception class. *)
Definition class_name (e : exn) : string :=
  match e with
  | TypeError => "TypeError"
  | ValueError => "ValueError"
  | IndexError => "IndexError"
  | AssertionError => "AssertionError"
  | BinasciiError => "binascii.Error"
  | MalformedPointError => "MalformedPointError"
  end.

(** A call either returns a value or raises. *)
Inductive result (A : Type) : Type :=
| Return (a : A)
| Raise (e : exn).

Arguments Return {A} a.
Arguments Raise {A} e.

Definition bind {A B : Type} (r : result A) (k : A -> result B) : result B :=
  match r with
  | Return a => k a
  | Raise e => Raise e
  end.

Notation "x <- r ;; k" := (bind r (fun x => k))
  (at level 61, r at next level, right associativity).

(** ** Bytes *)

Definition byte_to_Z (b : byte) : Z := Z.of_N (Byte.to_N b).

Definition byte_of_Z (z : Z) : byte :=
  match Byte.of_N (Z.to_N (z mod 256)) with
  | Some b => b
  | None => x00
  end.

(** [int.from_bytes(v, 'big')], also [ecdsa.util.string_to_number]. *)
Definition string_to_number (bs : list byte) : Z :=
  fold_left (fun acc b => acc * 256 + byte_to_Z b) bs 0.

(** The [l] low-order base-256 digits of [num], most significant first. *)
Fixpoint big_endian (l : nat) (num : Z) : list byte :=
  match l with
  | O => []
  | S l' => big_endian l' (num / 256) ++ [byte_of_Z num]
  end.

(** Python slices [s[-n:]]: the last [n] items, or all of [s] when it is
    shorter. *)
Definition last_n {A : Type} (n : nat) (s : list A) : list A :=
  skipn (length s - n) s.

(** Python indexing [s[i]] for [0 <= i]. *)
Definition index {A : Type} (s : list A) (i : nat) : result A :=
  match nth_error s i with
  | Some a => Return a
  | None => Raise IndexError
  end.

(** ** Arguments and the objects they may share *)

(** What a variable holds: an immutable value, or a reference to a
    [bytearray], which a callee can change under its caller. *)
Inductive pyarg : Type :=
| Immutable (v : value)
| Bytearray (ref : nat).

(** The bytearrays in being, by reference: a reference in use is a
    position of the list. *)
Definition store : Type := list (list byte).

Definition contents (st : store) (ref : nat) : list byte := nth ref st [].

Fixpoint store_set (st : store) (ref : nat) (bs : list byte) : store :=
  match st, ref with
  | [], _ => []
  | _ :: st', O => bs :: st'
  | o :: st', S ref' => o :: store_set st' ref' bs
  end.

(** [x += data] for a byte string [data]: a [bytes] value is rebound to
    a new value, a [bytearray] is extended in place, anything else
    raises [TypeError]. *)
Definition iadd_bytes (x : pyarg) (data : list byte) (st : store)
  : store * result pyarg :=
  match x with
  | Immutable (VBytes bs) => (st, Return (Immutable (VBytes (bs ++ data))))
  | Immutable _ => (st, Raise TypeError)
  | Bytearray ref =>
      (store_set st ref (contents st ref ++ data), Return (Bytearray ref))
  end.

(** [prefix + x] for a [bytes] value [prefix]: a new [bytes] value. *)
Definition add_to_bytes (prefix : list byte) (x : pyarg) (st : store)
  : result (list byte) :=
  match x with
  | Immutable (VBytes bs) => Return (prefix ++ bs)
  | Immutable _ => Raise TypeError
  | Bytearray ref => Return (prefix ++ contents st ref)
  end.

(** [v + data] for a byte string [data]. *)
Definition add_bytes (v : value) (data : list byte) : result value :=
  match v with
  | VBytes bs => Return (VBytes (bs ++ data))
  | _ => Raise TypeError
  end.

(** A call that leaves the store alone. *)
Definition lift {A : Type} (r : result A) (st : store) : store * result A :=
  (st, r).

(** ** binascii: lowercase hexadecimal *)

Definition hex_digit (d : Z) : ascii :=
  if d <? 10 then ascii_of_N (Z.to_N (48 + d))
  else ascii_of_N (Z.to_N (87 + d)).

Definition hex_byte (b : byte) : list ascii :=
  [hex_digit (byte_to_Z b / 16); hex_digit (byte_to_Z b mod 16)].

(** [binascii.hexlify(bs).decode()], which is also what [hexdigest()]
    returns for the digest [bs]. *)
Definition hexlify (bs : list byte) : list ascii :=
  flat_map hex_byte bs.

(** ** ecdsa: the curve SECP256k1 *)

Module secp256k1.

Definition p : Z :=
  0xFFFFFFFFFFFFFFFFFFFFFFFFFFFFFFFFFFFFFFFFFFFFFFFFFFFFFFFEFFFFFC2F.
Definition order : Z :=
  0xFFFFFFFFFFFFFFFFFFFFFFFFFFFFFFFEBAAEDCE6AF48A03BBFD25E8CD0364141.
Definition Gx : Z :=
  0x79BE667EF9DCBBAC55A06295CE870B07029BFCDB2DCE28D959F2815B16F81798.
Definition Gy : Z :=
  0x483ADA7726A3C4655DA4FBFC0E1108A8FD17B448A68554199C47D08FFB10D4B8.

(** [curve.baselen]: the byte length of a scalar or a coordinate. *)
Definition baselen : nat := 32.

(** A point is [None] at infinity, else its affine coordinates. *)
Definition point : Type := option (Z * Z).

Definition generator : point := Some (Gx, Gy).

(** The extended Euclidean loop of [numbertheory.inverse_mod]: the pair
    [(a, b)] runs through the remainder sequence and [(x0, x1)] through
    the matching cofactors of the number being inverted. *)
Fixpoint euclid (fuel : nat) (a b x0 x1 : Z) : Z :=
  match fuel with
  | O => x0
  | S fuel' =>
      if b =? 0 then x0
      else euclid fuel' b (a mod b) x1 (x0 - (a / b) * x1)
  end.

(** Inverse modulo the prime [p].  A remainder sequence that starts
    below [2^256] has fewer than [2 * 256] terms. *)
Definition inverse_mod (a : Z) : Z :=
  (euclid 512 (a mod p) p 1 0) mod p.

Definition double (P : point) : point :=
  match P with
  | None => None
  | Some (x, y) =>
      if y =? 0 then None
      else
        let l := (3 * x * x * inverse_mod (2 * y)) mod p in
        let x3 := (l * l - 2 * x) mod p in
        Some (x3, (l * (x - x3) - y) mod p)
  end.

Definition add (P Q : point) : point :=
  match P, Q with
  | None, _ => Q
  | _, None => P
  | Some (x1, y1), Some (x2, y2) =>
      if x1 =? x2 then
        if (y1 + y2) mod p =? 0 then None else double P
      else
        let l := ((y2 - y1) * inverse_mod (x2 - x1)) mod p in
        let x3 := (l * l - x1 - x2) mod p in
        Some (x3, (l * (x1 - x3) - y1) mod p)
  end.

(** Double-and-add along the binary expansion of the scalar. *)
Fixpoint mul_pos (k : positive) (P : point) : point :=
  match k with
  | xH => P
  | xO k' => double (mul_pos k' P)
  | xI k' => add (double (mul_pos k' P)) P
  end.

Definition mul (k : Z) (P : point) : point :=
  match k with
  | Zpos k' => mul_pos k' P
  | _ => None
  end.

Definition on_curve (P : point) : bool :=
  match P with
  | None => true
  | Some (x, y) => (y * y) mod p =? (x * x * x + 7) mod p
  end.

(** [curve.generator * secexp] in affine coordinates.  For
    [1 <= secexp < order] the product is a finite point; the pair
    [(0, 0)], which is not on the curve, stands for the point at
    infinity. *)
Definition generator_mul (secexp : Z) : Z * Z :=
  match mul secexp generator with
  | Some xy => xy
  | None => (0, 0)
  end.

End secp256k1.

(** ** hashlib *)

Module hashlib.

(** *** SHA-256 on 32-bit words *)

Definition mask32 : Z := 0xFFFFFFFF.

Definition add32 (a b : Z) : Z := Z.land (a + b) mask32.

Definition rotr32 (n x : Z) : Z :=
  Z.lor (Z.shiftr x n) (Z.land (Z.shiftl x (32 - n)) mask32).

Definition not32 (x : Z) : Z := Z.lxor x mask32.

Definition ch (x y z : Z) : Z :=
  Z.lxor (Z.land x y) (Z.land (not32 x) z).

Definition maj (x y z : Z) : Z :=
  Z.lxor (Z.lxor (Z.land x y) (Z.land x z)) (Z.land y z).

Definition big_sigma0 (x : Z) : Z :=
  Z.lxor (Z.lxor (rotr32 2 x) (rotr32 13 x)) (rotr32 22 x).

Definition big_sigma1 (x : Z) : Z :=
  Z.lxor (Z.lxor (rotr32 6 x) (rotr32 11 x)) (rotr32 25 x).

Definition small_sigma0 (x : Z) : Z :=
  Z.lxor (Z.lxor (rotr32 7 x) (rotr32 18 x)) (Z.shiftr x 3).

Definition small_sigma1 (x : Z) : Z :=
  Z.lxor (Z.lxor (rotr32 17 x) (rotr32 19 x)) (Z.shiftr x 10).

(** The constants of SHA-256 are cut from the roots of the first primes. *)
Definition is_prime (n : nat) : bool :=
  forallb (fun d => negb (n mod d =? 0)%nat) (seq 2 (n - 2)).

Definition first_primes (count : nat) : list Z :=
  map Z.of_nat (firstn count (filter is_prime (seq 2 310))).

(** The integer cube root, found bit by bit from bit [bits] down. *)
Fixpoint cube_root (bits : nat) (n r : Z) : Z :=
  match bits with
  | O => r
  | S bits' =>
      let r' := r + 2 ^ Z.of_nat bits' in
      cube_root bits' n (if r' * r' * r' <=? n then r' else r)
  end.

(** The first 32 bits of the fractional parts of the cube roots of the
    first 64 primes. *)
Definition round_constants : list Z :=
  Eval vm_compute in
    map (fun q => Z.land (cube_root 36 (q * 2 ^ 96) 0) mask32)
        (first_primes 64).

(** The first 32 bits of the fractional parts of the square roots of the
    first 8 primes. *)
Definition initial_hash : list Z :=
  Eval vm_compute in
    map (fun q => Z.land (Z.sqrt (q * 2 ^ 64)) mask32) (first_primes 8).

(** The message, a [0x80] byte, zero bytes up to 56 modulo 64, and the
    bit length on 8 bytes. *)
Definition sha256_pad (msg : list byte) : list byte :=
  let len := Z.of_nat (length msg) in
  msg ++ [x80] ++ repeat x00 (Z.to_nat ((55 - len) mod 64))
      ++ big_endian 8 (8 * len).

(** Consecutive groups of [size] items, [count] of them. *)
Fixpoint groups {A : Type} (size count : nat) (l : list A) : list (list A) :=
  match count with
  | O => []
  | S count' => firstn size l :: groups size count' (skipn size l)
  end.

Definition words_of_block (block : list byte) : list Z :=
  map string_to_number (groups 4 16 block).

(** The message schedule, grown from 16 words by [more] words. *)
Fixpoint schedule (more : nat) (w : list Z) : list Z :=
  match more with
  | O => w
  | S more' =>
      let t := length w in
      let at_ (back : nat) := nth (t - back) w 0 in
      schedule more'
        (w ++ [add32 (add32 (small_sigma1 (at_ 2%nat)) (at_ 7%nat))
                     (add32 (small_sigma0 (at_ 15%nat)) (at_ 16%nat))])
  end.

Definition working : Type := (Z * Z * Z * Z * Z * Z * Z * Z)%type.

Definition sha256_round (v : working) (kw : Z * Z) : working :=
  let '(a, b, c, d, e, f, g, h) := v in
  let t1 :=
    add32 (add32 (add32 h (big_sigma1 e)) (ch e f g))
          (add32 (fst kw) (snd kw)) in
  let t2 := add32 (big_sigma0 a) (maj a b c) in
  (add32 t1 t2, a, b, c, add32 d t1, e, f, g).

Definition sha256_compress (hash : list Z) (block : list byte) : list Z :=
  match hash with
  | [a; b; c; d; e; f; g; h] =>
      let w := schedule 48 (words_of_block block) in
      let '(a', b', c', d', e', f', g', h') :=
        fold_left sha256_round (combine round_constants w)
                  (a, b, c, d, e, f, g, h) in
      [add32 a a'; add32 b b'; add32 c c'; add32 d d';
       add32 e e'; add32 f f'; add32 g g'; add32 h h']
  | _ => hash
  end.

(** [hashlib.sha256(msg).digest()] *)
Definition sha256 (msg : list byte) : list byte :=
  let padded := sha256_pad msg in
  let blocks := groups 64 (length padded / 64) padded in
  flat_map (big_endian 4) (fold_left sha256_compress blocks initial_hash).

(** *** Hash objects *)

(** The algorithms every build of hashlib provides. *)
Inductive algorithm : Type :=
| Blake2b | Blake2s | Md5 | Sha1 | Sha224 | Sha256 | Sha384 | Sha512
| Sha3_224 | Sha3_256 | Sha3_384 | Sha3_512 | Shake_128 | Shake_256.

(** [hashlib.algorithms_guaranteed], name by name. *)
Definition algorithms_guaranteed : list (string * algorithm) :=
  [("blake2b", Blake2b); ("blake2s", Blake2s); ("md5", Md5);
   ("sha1", Sha1); ("sha224", Sha224); ("sha256", Sha256);
   ("sha384", Sha384); ("sha512", Sha512); ("sha3_224", Sha3_224);
   ("sha3_256", Sha3_256); ("sha3_384", Sha3_384); ("sha3_512", Sha3_512);
   ("shake_128", Shake_128); ("shake_256", Shake_256)]%string.

Fixpoint lookup (name : string) (table : list (string * algorithm))
  : option algorithm :=
  match table with
  | [] => None
  | (n, alg) :: table' =>
      if String.eqb name n then Some alg else lookup name table'
  end.

(** A hash object holds the bytes fed to it so far. *)
Record hash_object : Type :=
  { algo : algorithm; fed : list byte }.

(** [hashlib.new(name)]: a fresh object with nothing fed when hashlib
    has an algorithm of that name, and [ValueError] ("unsupported hash
    type") when it has none.  The table holds the names every build has;
    further names a build takes over from its OpenSSL are not listed.
    ['keccak256'] is a name of neither kind. *)
Definition new (name : string) : result hash_object :=
  match lookup name algorithms_guaranteed with
  | Some alg => Return {| algo := alg; fed := [] |}
  | None => Raise ValueError
  end.

Definition update (h : hash_object) (data : list byte) : hash_object :=
  {| algo := algo h; fed := fed h ++ data |}.

Section Digests.

(** The digest function of each algorithm, taken as given. *)
Variable digest_of : algorithm -> list byte -> list byte.

Definition digest (h : hash_object) : list byte :=
  digest_of (algo h) (fed h).

(** [h.hexdigest()]; the two SHAKE algorithms demand a length. *)
Definition hexdigest (h : hash_object) : result (list ascii) :=
  match algo h with
  | Shake_128 | Shake_256 => Raise TypeError
  | _ => Return (hexlify (digest h))
  end.

End Digests.

End hashlib.

(** ** base58 *)

Module base58.

Definition BITCOIN_ALPHABET : list byte :=
  list_byte_of_string
    "123456789ABCDEFGHJKLMNPQRSTUVWXYZabcdefghijkmnopqrstuvwxyz".

(** [alphabet[idx:idx+1]] *)
Definition alphabet_slice (idx : Z) : list byte :=
  firstn 1 (skipn (Z.to_nat idx) BITCOIN_ALPHABET).

(** The loop of [b58encode_int],
    [while i: i, idx = divmod(i, base); string = alphabet[idx:idx+1] + string],
    as a relation between the state on entry and the value of [string] on
    exit. *)
Inductive encode_loop : Z -> list byte -> list byte -> Prop :=
| encode_exit : forall string, encode_loop 0 string string
| encode_iter : forall i string out,
    i <> 0 ->
    encode_loop (i / 58) (alphabet_slice (i mod 58) ++ string) out ->
    encode_loop i string out.

(** The same loop, run for at most [fuel] iterations. *)
Fixpoint encode_digits (fuel : nat) (i : Z) (string : list byte) : list byte :=
  match fuel with
  | O => string
  | S fuel' =>
      if i =? 0 then string
      else encode_digits fuel' (i / 58) (alphabet_slice (i mod 58) ++ string)
  end.

(** [b58encode_int(i, default_one=False)]; a number has no more base-58
    digits than bits. *)
Definition b58encode_int (i : Z) : list byte :=
  encode_digits (S (Z.to_nat (Z.log2 i))) i [].

(** [v.lstrip(b'\0')] *)
Fixpoint lstrip_zeros (v : list byte) : list byte :=
  match v with
  | x00 :: v' => lstrip_zeros v'
  | _ => v
  end.

(** [b58encode(v)] *)
Definition b58encode (v : list byte) : list byte :=
  let mainSize := length v in
  let v' := lstrip_zeros v in
  let newSize := length v' in
  let acc := string_to_number v' in
  let result := b58encode_int acc in
  concat (repeat (firstn 1 BITCOIN_ALPHABET) (mainSize - newSize)) ++ result.

End base58.

(** [bytes.decode()] of ASCII bytes. *)
Definition decode (bs : list byte) : string := string_of_list_byte bs.

(** ** ecdsa: keys *)

Module ecdsa.

Import secp256k1.

(** [ecdsa.util.number_to_string(num, order)] for an order of [l]
    bytes: [num] is printed with [%0(2l)x] and unhexlified, and the
    result is asserted to be [l] bytes long.  A negative number prints
    a sign, and a number with an odd count of digits beyond [2l] has an
    odd-length print; [unhexlify] rejects both. *)
Definition number_to_string (num : Z) (l : nat) : result (list byte) :=
  if num <? 0 then Raise BinasciiError
  else if num <? 256 ^ Z.of_nat l then Return (big_endian l num)
  else if Z.even (Z.log2 num / 4) then Raise BinasciiError
  else Raise AssertionError.

(** A verifying key holds the affine coordinates of its point. *)
Record VerifyingKey : Type := { pubkey_point : Z * Z }.

Record SigningKey : Type :=
  { privkey_secret_multiplier : Z; verifying_key : VerifyingKey }.

Section Curve.

(** [curve.generator * secexp] in affine coordinates: the scalar
    multiplication the package carries out on the curve. *)
Variable generator_mul : Z -> Z * Z.

(** [SigningKey.from_secret_exponent(secexp, curve=SECP256k1)] *)
Definition from_secret_exponent (secexp : Z) : result SigningKey :=
  if negb ((1 <=? secexp) && (secexp <? order)) then
    Raise MalformedPointError
  else
    Return {| privkey_secret_multiplier := secexp;
              verifying_key := {| pubkey_point := generator_mul secexp |} |}.

(** [SigningKey.from_string(string, curve=SECP256k1)] *)
Definition from_string (string : list byte) : result SigningKey :=
  if negb (length string =? baselen)%nat then Raise MalformedPointError
  else from_secret_exponent (string_to_number string).

End Curve.

(** [VerifyingKey.to_string()]: the raw encoding, X then Y. *)
Definition to_string (vk : VerifyingKey) : result (list byte) :=
  x_str <- number_to_string (fst (pubkey_point vk)) baselen;;
  y_str <- number_to_string (snd (pubkey_point vk)) baselen;;
  Return (x_str ++ y_str).

End ecdsa.

(** ** GenKS.py *)

Section GenKS.

(** The scalar multiplication of the [ecdsa] package. *)
Variable generator_mul : Z -> Z * Z.

(** The digest functions of [hashlib]. *)
Variable digest_of : hashlib.algorithm -> list byte -> list byte.

(** [def bip38_decrypt(encrypted_key, password): pass] *)
Definition bip38_decrypt (encrypted_key password : value) : result value :=
  Return VNone.

(** [def private_key_to_wif(private_key, compressed=False)] *)
Definition private_key_to_wif (private_key : list byte) (compressed : bool)
  : string :=
  let prefix := [x80] in
  let private_key :=
    if compressed then private_key ++ [x01] else private_key in
  let extended_key := prefix ++ private_key in
  let checksum :=
    firstn 4 (hashlib.sha256 (hashlib.sha256 extended_key)) in
  decode (base58.b58encode (extended_key ++ checksum)).

(** [def private_key_to_public_key(private_key, compressed=False)] *)
Definition private_key_to_public_key
  (private_key : list byte) (compressed : bool) : result (list byte) :=
  sk <- ecdsa.from_string generator_mul private_key;;
  let vk := ecdsa.verifying_key sk in
  if compressed then
    s <- ecdsa.to_string vk;;
    b <- index s 32;;
    if byte_to_Z b mod 2 =? 0 then
      s2 <- ecdsa.to_string vk;; Return ([x02] ++ firstn 32 s2)
    else
      s3 <- ecdsa.to_string vk;; Return ([x03] ++ firstn 32 s3)
  else
    s <- ecdsa.to_string vk;; Return ([x04] ++ s).

(** [def public_key_to_address(public_key)] *)
Definition public_key_to_address (public_key : list byte) : result string :=
  keccak <- hashlib.new "keccak256";;
  b <- index public_key 0;;
  let keccak :=
    hashlib.update keccak
      (if byte_to_Z b =? 0x04 then skipn 1 public_key else public_key) in
  hex <- hashlib.hexdigest digest_of keccak;;
  Return ("0x" ++ string_of_list_ascii (last_n 40 hex))%string.

(** [def encrypt_bip38(private_key, password): pass] *)
Definition encrypt_bip38 (private_key password : value) : result value :=
  Return VNone.

(** *** Calls on arguments that may be shared *)

(** [private_key_to_wif(private_key, compressed)], statement by
    statement, on an argument of any kind: the store it leaves and what
    it returns or raises. *)
Definition private_key_to_wif_call
  (private_key : pyarg) (compressed : bool) (st : store)
  : store * result string :=
  let prefix := [x80] in
  let '(st, private_key) :=
    if compressed then iadd_bytes private_key [x01] st
    else (st, Return private_key) in
  (st,
   private_key <- private_key;;
   extended_key <- add_to_bytes prefix private_key st;;
   let checksum :=
     firstn 4 (hashlib.sha256 (hashlib.sha256 extended_key)) in
   Return (decode (base58.b58encode (extended_key ++ checksum)))).

(** [normalise_bytes], by which [SigningKey.from_string] reads its
    bytes-like argument. *)
Definition normalise_bytes (x : pyarg) (st : store) : result (list byte) :=
  match x with
  | Immutable (VBytes bs) => Return bs
  | Immutable _ => Raise TypeError
  | Bytearray ref => Return (contents st ref)
  end.

(** [private_key_to_public_key(private_key, compressed)] on an argument
    of any kind; the argument is only read. *)
Definition private_key_to_public_key_call
  (private_key : pyarg) (compressed : bool) (st : store)
  : store * result (list byte) :=
  (st,
   string <- normalise_bytes private_key st;;
   private_key_to_public_key string compressed).

(** *** The statements at module level *)

(** How a run of the statements ends: at the last of them, or at the
    assignment to [target], stopped by an exception. *)
Inductive outcome : Type :=
| Completed
| Stopped (target : string) (e : exn).

(** [target = call]: the assignment is made and the run goes on, or the
    call raises and the run stops there.  A run yields the names
    assigned, in order, and its outcome. *)
Definition assign {A : Type} (target : string)
  (call : store -> store * result A)
  (rest : A -> store -> list string * outcome)
  (st : store) : list string * outcome :=
  match call st with
  | (st', Return a) =>
      let '(names, out) := rest a st' in (target :: names, out)
  | (_, Raise e) => ([], Stopped target e)
  end.

(** The statements at module level, down to the first [print]. *)
Definition script : store -> list string * outcome :=
  assign "bip38_key" (lift (Return (VStr "your_bip38_key_here")))
    (fun bip38_key =>
  assign "password" (lift (Return (VStr "your_password_here")))
    (fun password =>
  assign "decrypted_private_key" (lift (bip38_decrypt bip38_key password))
    (fun decrypted_private_key =>
  assign "private_key_wif_uncompressed"
    (private_key_to_wif_call (Immutable decrypted_private_key) false)
    (fun private_key_wif_uncompressed =>
  assign "private_key_wif_compressed"
    (private_key_to_wif_call (Immutable decrypted_private_key) true)
    (fun private_key_wif_compressed =>
  assign "public_key_uncompressed"
    (private_key_to_public_key_call (Immutable decrypted_private_key) false)
    (fun public_key_uncompressed =>
  assign "public_key_compressed"
    (private_key_to_public_key_call (Immutable decrypted_private_key) true)
    (fun public_key_compressed =>
  assign "address_uncompressed"
    (lift (public_key_to_address public_key_uncompressed))
    (fun address_uncompressed =>
  assign "address_compressed"
    (lift (public_key_to_address public_key_compressed))
    (fun address_compressed =>
  assign "bip38_uncompressed"
    (lift (encrypt_bip38 decrypted_private_key password))
    (fun bip38_uncompressed =>
  assign "bip38_compressed"
    (lift (suffixed <- add_bytes decrypted_private_key [x01];;
           encrypt_bip38 suffixed password))
    (fun bip38_compressed _ => ([], Completed)))))))))))).

End GenKS.

(** ** Test data and the specification's wording *)

Definition ascii_bytes (s : string) : list byte := list_byte_of_string s.

(** A 32-byte private key, given by its scalar. *)
Definition key_hex (z : Z) : list byte := big_endian 32 z.

(** The WIF payload in the specification's words: the version byte, the
    key, and [0x01] exactly when the key is flagged compressed. *)
Definition wif_payload (versionByte : byte) (key : list byte)
  (compressed : bool) : list byte :=
  [versionByte] ++ key ++ (if compressed then [x01] else []).

(** The first 4 bytes of the double SHA-256 hash. *)
Definition double_hash_checksum (payload : list byte) : list byte :=
  firstn 4 (hashlib.sha256 (hashlib.sha256 payload)).

(** The coordinates of a point are residues modulo the field prime. *)
Definition in_field (xy : Z * Z) : Prop :=
  0 <= fst xy < secp256k1.p /\ 0 <= snd xy < secp256k1.p.

(** The same for a point that may be the one at infinity. *)
Definition point_in_field (P : secp256k1.point) : Prop :=
  match P with
  | None => True
  | Some xy => in_field xy
  end.

(** ** Reading base-58 digits *)

(** The alphabet character of the digit [d]. *)
Definition digit_char (d : Z) : byte :=
  nth (Z.to_nat d) base58.BITCOIN_ALPHABET x00.

(** The digit a character stands for: its place in the alphabet. *)
Fixpoint place (c : byte) (alphabet : list byte) : Z :=
  match alphabet with
  | [] => 0
  | a :: alphabet' => if Byte.eqb c a then 0 else 1 + place c alphabet'
  end.

Definition digit_of (c : byte) : Z := place c base58.BITCOIN_ALPHABET.

(** The number a list of base-58 digits writes, most significant first. *)
Definition digits_value (ds : list Z) : Z :=
  fold_left (fun acc d => acc * 58 + d) ds 0.

Definition is_digit (d : Z) : Prop := 0 <= d < 58.

(** A digit list without a leading zero. *)
Definition canonical (ds : list Z) : Prop :=
  Forall is_digit ds /\ (forall d ds', ds = d :: ds' -> d <> 0).

(** The characters of the Base58 alphabet. *)
Definition base58_char (c : byte) : Prop := In c base58.BITCOIN_ALPHABET.

(** * Test vectors *)

Example sha256_empty :
  hexlify (hashlib.sha256 []) =
  list_ascii_of_string
    "e3b0c44298fc1c149afbf4c8996fb92427ae41e4649b934ca495991b7852b855".
Proof. vm_compute. reflexivity. Qed.

Example sha256_abc :
  hexlify (hashlib.sha256 (ascii_bytes "abc")) =
  list_ascii_of_string
    "ba7816bf8f01cfea414140de5dae2223b00361a396177a9cb410ff61f20015ad".
Proof. vm_compute. reflexivity. Qed.

Example sha256_two_blocks :
  hexlify (hashlib.sha256 (ascii_bytes
    "abcdbcdecdefdefgefghfghighijhijkijkljklmklmnlmnomnopnopq")) =
  list_ascii_of_string
    "248d6a61d20638b8e5c026930c3e6039a33ce45964ff2167f6ecedd419db06c1".
Proof. vm_compute. reflexivity. Qed.

Example wif_uncompressed :
  private_key_to_wif
    (key_hex 0x0C28FCA386C7A227600B2FE50B7CAE11EC86D3BF1FBE471BE89827E19D72AA1D)
    false
  = "5HueCGU8rMjxEXxiPuD5BDku4MkFqeZyd4dZ1jvhTVqvbTLvyTJ"%string.
Proof. vm_compute. reflexivity. Qed.

Example wif_compressed :
  private_key_to_wif
    (key_hex 0x0C28FCA386C7A227600B2FE50B7CAE11EC86D3BF1FBE471BE89827E19D72AA1D)
    true
  = "KwdMAjGmerYanjeui5SHS7JkmpZvVipYvB2LJGU1ZxJwYvP98617"%string.
Proof. vm_compute. reflexivity. Qed.

Example b58_leading_zeros :
  decode (base58.b58encode [x00; x00; x01]) = "112"%string.
Proof. vm_compute. reflexivity. Qed.

Example G2 :
  secp256k1.mul 2 secp256k1.generator =
  Some (0xC6047F9441ED7D6D3045406E95C07CD85C778E4B8CEF3CA7ABAC09B95C709EE5,
        0x1AE168FEA63DC339A3C58419466CEAEEF7F632653266D0E1236431A950CFE52A).
Proof. vm_compute. reflexivity. Qed.

Example G3 :
  secp256k1.mul 3 secp256k1.generator =
  Some (0xF9308A019258C31049344F85F89D5229B531C845836F99B08601F113BCE036F9,
        0x388F7B0F632DE8140FE337E62A37F3566500A99934C2231B6CB9FD7584B8E672).
Proof. vm_compute. reflexivity. Qed.

Example G4 :
  secp256k1.generator_mul 4 =
  (0xE493DBF1C10D80F3581E4904930B1404CC6C13900EE0758474FA94ABE8C4CD13,
   0x51ED993EA0D455B75642E2098EA51448D967AE33BFBDFE40CFE97BDC47739922).
Proof. vm_compute. reflexivity. Qed.

Example G4_on_curve :
  secp256k1.on_curve (secp256k1.mul 4 secp256k1.generator) = true.
Proof. vm_compute. reflexivity. Qed.

(** * Bytes, slices and hexadecimal *)

Lemma byte_to_Z_range (b : byte) : 0 <= byte_to_Z b < 256.
Proof.
  unfold byte_to_Z. pose proof (Byte.to_N_bounded b) as H. lia.
Qed.

Lemma byte_to_of_Z (z : Z) : byte_to_Z (byte_of_Z z) = z mod 256.
Proof.
  unfold byte_to_Z, byte_of_Z.
  pose proof (Z.mod_pos_bound z 256 eq_refl) as Hz.
  destruct (Byte.of_N (Z.to_N (z mod 256))) as [b|] eqn:E.
  - apply Byte.to_of_N in E. rewrite E. lia.
  - apply Byte.of_N_None_iff in E. lia.
Qed.

Lemma byte_eqb_x04 (b : byte) : (byte_to_Z b =? 0x04) = Byte.eqb b x04.
Proof. destruct b; reflexivity. Qed.

Lemma big_endian_length (l : nat) (num : Z) : length (big_endian l num) = l.
Proof.
  revert num. induction l as [|l IH]; intros num; simpl.
  - reflexivity.
  - rewrite length_app, IH. simpl. lia.
Qed.

(** The first byte of a big-endian string is its most significant digit. *)
Lemma big_endian_head (l : nat) (num : Z) :
  nth_error (big_endian (S l) num) 0 = Some (byte_of_Z (num / 256 ^ Z.of_nat l)).
Proof.
  revert num. induction l as [|l IH]; intros num.
  - simpl. rewrite Z.div_1_r. reflexivity.
  - change (big_endian (S (S l)) num)
      with (big_endian (S l) (num / 256) ++ [byte_of_Z num]).
    rewrite nth_error_app1
      by (rewrite big_endian_length; lia).
    rewrite IH. do 2 f_equal.
    rewrite Nat2Z.inj_succ, Z.pow_succ_r by lia.
    rewrite Z.div_div by lia. reflexivity.
Qed.

(** * The library models *)

(** The bounded loop of [b58encode_int] runs the [while] loop to its
    exit whenever the number fits in [fuel] bits. *)
Lemma encode_digits_runs_loop (fuel : nat) (i : Z) (string : list byte) :
  0 <= i < 2 ^ Z.of_nat fuel ->
  base58.encode_loop i string (base58.encode_digits fuel i string).
Proof.
  revert i string. induction fuel as [|fuel IH]; intros i string Hi.
  - simpl in *. assert (i = 0) by lia. subst i. constructor.
  - cbn [base58.encode_digits]. destruct (i =? 0) eqn:E.
    + apply Z.eqb_eq in E. subst i. constructor.
    + apply Z.eqb_neq in E. apply base58.encode_iter; [exact E|].
      apply IH. rewrite Nat2Z.inj_succ, Z.pow_succ_r in Hi by lia.
      split.
      * apply Z.div_pos; lia.
      * apply Z.div_lt_upper_bound; lia.
Qed.

(** [b58encode_int] returns what the [while] loop leaves in [string]. *)
Lemma b58encode_int_runs_loop (i : Z) :
  0 <= i -> base58.encode_loop i [] (base58.b58encode_int i).
Proof.
  intros Hi. unfold base58.b58encode_int. apply encode_digits_runs_loop.
  split; [exact Hi|].
  destruct (Z.eq_dec i 0) as [->|Hne].
  - reflexivity.
  - rewrite Nat2Z.inj_succ, Z2Nat.id by apply Z.log2_nonneg.
    apply Z.log2_spec. lia.
Qed.

(** The loop is deterministic: its exit value is unique. *)
Lemma encode_loop_unique (i : Z) (string out1 out2 : list byte) :
  base58.encode_loop i string out1 ->
  base58.encode_loop i string out2 -> out1 = out2.
Proof.
  intros H1. revert out2.
  induction H1 as [string|i string out Hne H1 IH]; intros out2 H2.
  - inversion H2; subst; [reflexivity|congruence].
  - inversion H2; subst; [congruence|]. apply IH. assumption.
Qed.

(** ** Coordinates of the computed points *)

Lemma p_positive : 0 < secp256k1.p.
Proof. reflexivity. Qed.

Lemma p_below_2_256 : secp256k1.p < 256 ^ Z.of_nat secp256k1.baselen.
Proof. reflexivity. Qed.

Lemma mod_p_in_field (a b : Z) :
  in_field (a mod secp256k1.p, b mod secp256k1.p).
Proof. split; apply Z.mod_pos_bound, p_positive. Qed.

Lemma double_in_field (P : secp256k1.point) :
  point_in_field (secp256k1.double P).
Proof.
  destruct P as [[x y]|]; simpl; [|exact I].
  destruct (y =? 0); simpl; [exact I|apply mod_p_in_field].
Qed.

Lemma add_in_field (P Q : secp256k1.point) :
  point_in_field P -> point_in_field Q ->
  point_in_field (secp256k1.add P Q).
Proof.
  intros HP HQ. destruct P as [[x1 y1]|], Q as [[x2 y2]|];
    cbn [secp256k1.add]; try assumption.
  destruct (x1 =? x2).
  - destruct ((y1 + y2) mod secp256k1.p =? 0); [exact I|apply double_in_field].
  - apply mod_p_in_field.
Qed.

Lemma mul_pos_in_field (k : positive) (P : secp256k1.point) :
  point_in_field P -> point_in_field (secp256k1.mul_pos k P).
Proof.
  intros HP. induction k as [k IH|k IH|]; cbn [secp256k1.mul_pos].
  - apply add_in_field; [apply double_in_field|exact HP].
  - apply double_in_field.
  - exact HP.
Qed.

(** Whatever the scalar, the computed coordinates are field residues. *)
Lemma generator_mul_in_field (secexp : Z) :
  in_field (secp256k1.generator_mul secexp).
Proof.
  unfold secp256k1.generator_mul.
  assert (HG : point_in_field secp256k1.generator)
    by (split; split; reflexivity || discriminate).
  assert (H : point_in_field (secp256k1.mul secexp secp256k1.generator)).
  { destruct secexp; simpl; try exact I. apply mul_pos_in_field, HG. }
  destruct (secp256k1.mul secexp secp256k1.generator) as [xy|].
  - exact H.
  - split; split; reflexivity || discriminate.
Qed.

(** ** Encoding a verifying key *)

Lemma number_to_string_in_field (num : Z) :
  0 <= num < secp256k1.p ->
  ecdsa.number_to_string num secp256k1.baselen
  = Return (big_endian secp256k1.baselen num).
Proof.
  intros H. unfold ecdsa.number_to_string.
  pose proof p_below_2_256 as Hp.
  destruct (num <? 0) eqn:E1; [apply Z.ltb_lt in E1; lia|].
  destruct (num <? 256 ^ Z.of_nat secp256k1.baselen) eqn:E2;
    [reflexivity|apply Z.ltb_ge in E2; lia].
Qed.

Lemma to_string_in_field (xy : Z * Z) :
  in_field xy ->
  ecdsa.to_string {| ecdsa.pubkey_point := xy |}
  = Return (big_endian 32 (fst xy) ++ big_endian 32 (snd xy)).
Proof.
  intros [Hx Hy]. unfold ecdsa.to_string. cbn [ecdsa.pubkey_point].
  rewrite (number_to_string_in_field _ Hx), (number_to_string_in_field _ Hy).
  reflexivity.
Qed.

(** ** The scalar check of [SigningKey.from_string] *)

Section FromString.

Variable generator_mul : Z -> Z * Z.

Lemma from_string_valid (private_key : list byte) :
  length private_key = 32%nat ->
  1 <= string_to_number private_key < secp256k1.order ->
  ecdsa.from_string generator_mul private_key
  = Return {| ecdsa.privkey_secret_multiplier := string_to_number private_key;
              ecdsa.verifying_key :=
                {| ecdsa.pubkey_point :=
                     generator_mul (string_to_number private_key) |} |}.
Proof.
  intros Hlen Hk. unfold ecdsa.from_string, ecdsa.from_secret_exponent.
  rewrite Hlen. cbn [Nat.eqb secp256k1.baselen negb].
  replace (1 <=? string_to_number private_key) with true
    by (symmetry; apply Z.leb_le; lia).
  replace (string_to_number private_key <? secp256k1.order) with true
    by (symmetry; apply Z.ltb_lt; lia).
  reflexivity.
Qed.

Lemma from_string_invalid (private_key : list byte) :
  ~ 1 <= string_to_number private_key < secp256k1.order ->
  ecdsa.from_string generator_mul private_key = Raise MalformedPointError.
Proof.
  intros Hk. unfold ecdsa.from_string, ecdsa.from_secret_exponent.
  destruct (negb (length private_key =? secp256k1.baselen)%nat);
    [reflexivity|].
  destruct (1 <=? string_to_number private_key) eqn:E1;
    [|reflexivity].
  destruct (string_to_number private_key <? secp256k1.order) eqn:E2;
    [|reflexivity].
  apply Z.leb_le in E1. apply Z.ltb_lt in E2. lia.
Qed.

(** What [private_key_to_public_key] returns for a key the package
    accepts: the compressed form is headed by [0x02] or [0x03] after
    the parity of byte 32 of the raw encoding, the leading byte of Y. *)
Lemma private_key_to_public_key_valid
  (private_key : list byte) (compressed : bool) :
  length private_key = 32%nat ->
  1 <= string_to_number private_key < secp256k1.order ->
  in_field (generator_mul (string_to_number private_key)) ->
  private_key_to_public_key generator_mul private_key compressed
  = let '(x, y) := generator_mul (string_to_number private_key) in
    Return
      (if compressed then
         [if Z.even (y / 256 ^ 31) then x02 else x03] ++ big_endian 32 x
       else [x04] ++ big_endian 32 x ++ big_endian 32 y).
Proof.
  intros Hlen Hk Hf. unfold private_key_to_public_key.
  rewrite (from_string_valid _ Hlen Hk).
  cbn [bind ecdsa.verifying_key].
  rewrite (to_string_in_field _ Hf).
  destruct (generator_mul (string_to_number private_key)) as [x y].
  cbn [fst snd bind]. destruct compressed; [|reflexivity].
  unfold index.
  rewrite nth_error_app2 by (rewrite big_endian_length; lia).
  rewrite big_endian_length, Nat.sub_diag.
  rewrite (big_endian_head 31 y). cbn [bind].
  rewrite byte_to_of_Z.
  replace (Z.of_nat 31) with 31 by reflexivity.
  rewrite Z.mod_mod_divide by (exists 128; reflexivity).
  rewrite <- Zeven_mod.
  rewrite firstn_app, big_endian_length, Nat.sub_diag, firstn_O, app_nil_r.
  rewrite firstn_all2 by (rewrite big_endian_length; lia).
  destruct (Z.even (y / 256 ^ 31)); reflexivity.
Qed.

End FromString.

Lemma sha256_compress_length (hash : list Z) (block : list byte) :
  length hash = 8%nat -> length (hashlib.sha256_compress hash block) = 8%nat.
Proof.
  intros H. unfold hashlib.sha256_compress.
  destruct hash as [|a [|b [|c [|d [|e [|f [|g [|h [|i rest]]]]]]]]];
    try discriminate H.
  destruct (fold_left hashlib.sha256_round _ _)
    as [[[[[[[a' b'] c'] d'] e'] f'] g'] h'].
  reflexivity.
Qed.

(** A SHA-256 digest has 32 bytes. *)
Lemma sha256_length (msg : list byte) : length (hashlib.sha256 msg) = 32%nat.
Proof.
  unfold hashlib.sha256.
  set (blocks := hashlib.groups _ _ _).
  assert (H : forall hash, length hash = 8%nat ->
              length (fold_left hashlib.sha256_compress blocks hash) = 8%nat).
  { induction blocks as [|blk blocks IH]; intros hash Hh; simpl.
    - exact Hh.
    - apply IH, sha256_compress_length, Hh. }
  rewrite (flat_map_constant_length (c := 4%nat)),
    (H hashlib.initial_hash eq_refl).
  - reflexivity.
  - intros w _. apply big_endian_length.
Qed.

(** * The BIP38 stubs *)

(** C9: whatever they are given — any encrypted key, any private key, any
    passphrase, any value at all — [bip38_decrypt] and [encrypt_bip38]
    return [None] and do not raise, so their return value tells a caller
    nothing about success or failure. *)
Theorem bip38_stubs_return_None (a b : value) :
  bip38_decrypt a b = Return VNone /\ encrypt_bip38 a b = Return VNone.
Proof. split; reflexivity. Qed.

(** Handed [None], [private_key_to_wif] raises [TypeError] when it
    concatenates, and leaves the store as it was. *)
Lemma private_key_to_wif_call_None (compressed : bool) (st : store) :
  private_key_to_wif_call (Immutable VNone) compressed st
  = (st, Raise TypeError).
Proof. destruct compressed; reflexivity. Qed.

(** The module's own statements take what [bip38_decrypt] returns for
    the private key bytes: once [bip38_key], [password] and
    [decrypted_private_key] are assigned, the first call of
    [private_key_to_wif] raises [TypeError], and the run stops at that
    assignment. *)
Lemma script_raises_TypeError
  (generator_mul : Z -> Z * Z)
  (digest_of : hashlib.algorithm -> list byte -> list byte) (st : store) :
  script generator_mul digest_of st
  = (["bip38_key"; "password"; "decrypted_private_key"]%string,
     Stopped "private_key_wif_uncompressed" TypeError).
Proof. reflexivity. Qed.

(** C1, as the code has it: encrypting a key [k] (with the suffix [0x01]
    the script appends for the compressed form) under a passphrase and
    decrypting the outcome under the same passphrase returns [None], which
    is not the pair of the key and its compression flag. *)
Theorem bip38_round_trip_returns_None
  (k : list byte) (p : string) (c : bool) :
  (record <- encrypt_bip38 (VBytes (if c then k ++ [x01] else k)) (VStr p);;
   bip38_decrypt record (VStr p)) = Return VNone
  /\ Return VNone <> Return (VTuple [VBytes k; VBool c]).
Proof. split; [reflexivity|discriminate]. Qed.

(** C5, as the code has it: decrypting a record under a passphrase other
    than the one it was made with returns normally, with the very result
    the right passphrase gives; no exception is raised. *)
Theorem bip38_decrypt_ignores_passphrase (k p p' : value) :
  (record <- encrypt_bip38 k p;; bip38_decrypt record p')
  = (record <- encrypt_bip38 k p;; bip38_decrypt record p)
  /\ forall e : exn,
      (record <- encrypt_bip38 k p;; bip38_decrypt record p') <> Raise e.
Proof. split; [reflexivity|intros e; discriminate]. Qed.

(** * The WIF encoder *)

(** C3: [private_key_to_wif k c] is the base-58 encoding of the payload
    followed by its checksum, where the payload is the version byte
    [0x80], the key, and the byte [0x01] exactly when [c] is true, and the
    checksum is the first 4 bytes of the double SHA-256 hash of the
    payload. *)
Theorem private_key_to_wif_spec (k : list byte) (c : bool) :
  private_key_to_wif k c
  = decode (base58.b58encode
              (wif_payload x80 k c ++ double_hash_checksum (wif_payload x80 k c)))
  /\ length (double_hash_checksum (wif_payload x80 k c)) = 4%nat.
Proof.
  split.
  - unfold private_key_to_wif, wif_payload, double_hash_checksum.
    destruct c; [reflexivity|]. rewrite app_nil_r. reflexivity.
  - unfold double_hash_checksum.
    rewrite length_firstn, sha256_length. reflexivity.
Qed.

(** * The address generator *)

(** [hashlib] has no algorithm of the name the module asks for. *)
Lemma new_keccak256 : hashlib.new "keccak256" = Raise ValueError.
Proof. reflexivity. Qed.

(** C4, as the code has it: [hashlib.new('keccak256')] raises
    [ValueError], so [public_key_to_address] raises it for every public
    key byte string, before a byte of the key is read: no hash is
    computed and no address is returned. *)
Theorem public_key_to_address_raises_ValueError
  (digest_of : hashlib.algorithm -> list byte -> list byte)
  (public_key : list byte) :
  public_key_to_address digest_of public_key = Raise ValueError.
Proof. unfold public_key_to_address. rewrite new_keccak256. reflexivity. Qed.

(** * The public key deriver *)

(** C2, as the code has it: for the private key 4 the Y coordinate of
    the public point is even, yet the compressed public key starts with
    [0x03]; the code reads the parity of byte 32 of the raw encoding,
    which is the most significant byte of Y. *)
Theorem compressed_prefix_at_key_4 :
  let '(x, y) := secp256k1.generator_mul 4 in
  Z.even y = true
  /\ private_key_to_public_key secp256k1.generator_mul (key_hex 4) true
     = Return ([x03] ++ big_endian 32 x)
  /\ private_key_to_public_key secp256k1.generator_mul (key_hex 4) false
     = Return ([x04] ++ big_endian 32 x ++ big_endian 32 y).
Proof. vm_compute. repeat split. Qed.

Section Deriver.

(** The scalar multiplication of the [ecdsa] package, and what is
    relied on about it: for a scalar the package accepts, the
    coordinates it yields are residues modulo the field prime. *)
Variable generator_mul : Z -> Z * Z.
Hypothesis generator_mul_affine :
  forall secexp : Z,
    1 <= secexp < secp256k1.order -> in_field (generator_mul secexp).

(** C6, amended: for a 32-byte input whose scalar is 0 or at least the
    curve order, [private_key_to_public_key] fails with the
    [MalformedPointError] that the [ecdsa] package raises inside
    [SigningKey.from_string]; for a scalar from 1 to the order less one
    it returns a public key. *)
Theorem private_key_to_public_key_scalar_check
  (private_key : list byte) (compressed : bool) :
  length private_key = 32%nat ->
  (string_to_number private_key = 0
   \/ secp256k1.order <= string_to_number private_key ->
   private_key_to_public_key generator_mul private_key compressed
   = Raise MalformedPointError)
  /\ (1 <= string_to_number private_key < secp256k1.order ->
      exists public_key : list byte,
        private_key_to_public_key generator_mul private_key compressed
        = Return public_key).
Proof.
  intros Hlen. split.
  - intros Hk. unfold private_key_to_public_key.
    rewrite from_string_invalid by lia. reflexivity.
  - intros Hk.
    rewrite (private_key_to_public_key_valid generator_mul _ compressed
               Hlen Hk (generator_mul_affine _ Hk)).
    destruct (generator_mul (string_to_number private_key)) as [x y].
    eexists. reflexivity.
Qed.

(** C7: for a valid private key the compressed public key has exactly
    33 bytes and the uncompressed one exactly 65. *)
Theorem public_key_lengths (private_key : list byte) :
  length private_key = 32%nat ->
  1 <= string_to_number private_key < secp256k1.order ->
  (exists pk : list byte,
      private_key_to_public_key generator_mul private_key true = Return pk
      /\ length pk = 33%nat)
  /\ (exists pk : list byte,
        private_key_to_public_key generator_mul private_key false = Return pk
        /\ length pk = 65%nat).
Proof.
  intros Hlen Hk.
  pose proof (generator_mul_affine _ Hk) as Hf.
  rewrite !(private_key_to_public_key_valid generator_mul _ _ Hlen Hk Hf).
  destruct (generator_mul (string_to_number private_key)) as [x y].
  split; eexists; (split; [reflexivity|]).
  - rewrite length_app, big_endian_length. reflexivity.
  - rewrite !length_app, !big_endian_length. reflexivity.
Qed.

End Deriver.

(** * Repeated calls *)




(** No exception class of the code or of its packages is named
    InvalidKeyError. *)
Lemma no_InvalidKeyError (e : exn) : class_name e <> "InvalidKeyError"%string.
Proof. destruct e; discriminate. Qed.

(** C6, against the claim as worded: at scalar 0 the exception raised is
    [MalformedPointError]; it is not one named InvalidKeyError. *)
Lemma scalar_zero_raises_no_InvalidKeyError :
  private_key_to_public_key secp256k1.generator_mul (key_hex 0) true
  = Raise MalformedPointError
  /\ ~ (exists e : exn,
         private_key_to_public_key secp256k1.generator_mul (key_hex 0) true
         = Raise e
         /\ class_name e = "InvalidKeyError"%string).
Proof.
  split; [reflexivity|]. intros (e & _ & Hname).
  exact (no_InvalidKeyError e Hname).
Qed.

(** * Witnesses on SECP256k1 *)

Lemma private_key_to_public_key_scalar_check_witness :
  private_key_to_public_key secp256k1.generator_mul (key_hex 0) true
  = Raise MalformedPointError
  /\ private_key_to_public_key secp256k1.generator_mul
       (key_hex secp256k1.order) false
     = Raise MalformedPointError
  /\ exists public_key : list byte,
      private_key_to_public_key secp256k1.generator_mul (key_hex 4) true
      = Return public_key.
Proof.
  pose (contract := fun (secexp : Z) (_ : 1 <= secexp < secp256k1.order) =>
                      generator_mul_in_field secexp).
  split; [|split].
  - apply (private_key_to_public_key_scalar_check
             secp256k1.generator_mul contract (key_hex 0) true eq_refl).
    left. reflexivity.
  - apply (private_key_to_public_key_scalar_check
             secp256k1.generator_mul contract
             (key_hex secp256k1.order) false eq_refl).
    right. vm_compute. discriminate.
  - apply (private_key_to_public_key_scalar_check
             secp256k1.generator_mul contract (key_hex 4) true eq_refl).
    vm_compute. split; [discriminate|reflexivity].
Defined.

Lemma public_key_lengths_witness :
  (exists pk : list byte,
      private_key_to_public_key secp256k1.generator_mul (key_hex 4) true
      = Return pk /\ length pk = 33%nat)
  /\ (exists pk : list byte,
        private_key_to_public_key secp256k1.generator_mul (key_hex 4) false
        = Return pk /\ length pk = 65%nat).
Proof.
  apply (public_key_lengths secp256k1.generator_mul
           (fun secexp _ => generator_mul_in_field secexp)
           (key_hex 4) eq_refl).
  vm_compute. split; [discriminate|reflexivity].
Defined.

(** * From private key to address *)

Section NoAddress.

Variable generator_mul : Z -> Z * Z.
Variable digest_of : hashlib.algorithm -> list byte -> list byte.
Hypothesis generator_mul_affine :
  forall secexp : Z,
    1 <= secexp < secp256k1.order -> in_field (generator_mul secexp).

(** C10, as the code has it: for a valid private key, deriving the
    compressed or the uncompressed public key and asking for its address
    ends in [ValueError] both times: one and the same outcome, and no
    address either time. *)
Theorem no_address_for_either_key (private_key : list byte) :
  length private_key = 32%nat ->
  1 <= string_to_number private_key < secp256k1.order ->
  (pk <- private_key_to_public_key generator_mul private_key true;;
   public_key_to_address digest_of pk) = Raise ValueError
  /\ (pk <- private_key_to_public_key generator_mul private_key false;;
      public_key_to_address digest_of pk) = Raise ValueError.
Proof.
  intros Hlen Hk. pose proof (generator_mul_affine _ Hk) as Hf.
  rewrite !(private_key_to_public_key_valid generator_mul _ _ Hlen Hk Hf).
  destruct (generator_mul (string_to_number private_key)) as [x y].
  split; reflexivity.
Qed.

End NoAddress.

(** * Big-endian numbers *)

Lemma byte_of_to_Z (b : byte) : byte_of_Z (byte_to_Z b) = b.
Proof. destruct b; reflexivity. Qed.

Lemma byte_of_Z_low (q : Z) (b : byte) : byte_of_Z (q * 256 + byte_to_Z b) = b.
Proof.
  pose proof (byte_to_Z_range b) as Hb. unfold byte_of_Z.
  rewrite Z.add_comm, Z.mod_add, Z.mod_small by lia.
  unfold byte_to_Z. rewrite N2Z.id, Byte.of_to_N. reflexivity.
Qed.

Lemma string_to_number_snoc (bs : list byte) (b : byte) :
  string_to_number (bs ++ [b]) = string_to_number bs * 256 + byte_to_Z b.
Proof. unfold string_to_number. rewrite fold_left_app. reflexivity. Qed.

Lemma string_to_number_range (bs : list byte) :
  0 <= string_to_number bs < 256 ^ Z.of_nat (length bs).
Proof.
  induction bs as [|b bs IH] using rev_ind.
  - cbn. lia.
  - rewrite string_to_number_snoc, length_app, Nat.add_comm.
    cbn [length Nat.add]. rewrite Nat2Z.inj_succ, Z.pow_succ_r by lia.
    pose proof (byte_to_Z_range b). lia.
Qed.

(** Writing a number read from [bs] on as many bytes gives [bs] back. *)
Lemma big_endian_string_to_number (bs : list byte) :
  big_endian (length bs) (string_to_number bs) = bs.
Proof.
  induction bs as [|b bs IH] using rev_ind.
  - reflexivity.
  - rewrite string_to_number_snoc, length_app, Nat.add_comm.
    cbn [length Nat.add big_endian].
    pose proof (byte_to_Z_range b) as Hb.
    rewrite byte_of_Z_low.
    replace ((string_to_number bs * 256 + byte_to_Z b) / 256)
      with (string_to_number bs)
      by (rewrite Z.div_add_l by lia; rewrite Z.div_small by lia; lia).
    rewrite IH. reflexivity.
Qed.

(** Reading a number written on [l] bytes gives it back when it fits. *)
Lemma string_to_number_big_endian (l : nat) (num : Z) :
  0 <= num < 256 ^ Z.of_nat l -> string_to_number (big_endian l num) = num.
Proof.
  revert num. induction l as [|l IH]; intros num H.
  - cbn in *. lia.
  - cbn [big_endian]. rewrite string_to_number_snoc, byte_to_of_Z.
    rewrite Nat2Z.inj_succ, Z.pow_succ_r in H by lia.
    rewrite IH.
    + pose proof (Z.div_mod num 256). lia.
    + split; [apply Z.div_pos; lia|apply Z.div_lt_upper_bound; lia].
Qed.

Lemma string_to_number_cons (b : byte) (bs : list byte) :
  string_to_number (b :: bs)
  = byte_to_Z b * 256 ^ Z.of_nat (length bs) + string_to_number bs.
Proof.
  induction bs as [|c bs IH] using rev_ind.
  - cbn. lia.
  - rewrite app_comm_cons, !string_to_number_snoc, IH, length_app, Nat.add_comm.
    cbn [length Nat.add]. rewrite Nat2Z.inj_succ, Z.pow_succ_r by lia. ring.
Qed.

(** Byte strings that begin with the same non-zero byte and read as the
    same number are equal. *)
Lemma string_to_number_inj_headed (b : byte) (r1 r2 : list byte) :
  0 < byte_to_Z b ->
  string_to_number (b :: r1) = string_to_number (b :: r2) -> r1 = r2.
Proof.
  intros Hb H. rewrite !string_to_number_cons in H.
  pose proof (string_to_number_range r1) as H1.
  pose proof (string_to_number_range r2) as H2.
  assert (Hlen : length r1 = length r2).
  { destruct (Nat.lt_trichotomy (length r1) (length r2)) as [Hlt|[Heq|Hlt]];
      [exfalso|exact Heq|exfalso].
    - assert (256 * 256 ^ Z.of_nat (length r1) <= 256 ^ Z.of_nat (length r2)).
      { rewrite <- Z.pow_succ_r by lia. apply Z.pow_le_mono_r; lia. }
      pose proof (byte_to_Z_range b). nia.
    - assert (256 * 256 ^ Z.of_nat (length r2) <= 256 ^ Z.of_nat (length r1)).
      { rewrite <- Z.pow_succ_r by lia. apply Z.pow_le_mono_r; lia. }
      pose proof (byte_to_Z_range b). nia. }
  rewrite Hlen in H.
  rewrite <- (big_endian_string_to_number r1), <- (big_endian_string_to_number r2).
  rewrite Hlen. f_equal. lia.
Qed.

(** * Base-58 digits *)

Lemma slice_one {A : Type} (n : nat) (l : list A) (d : A) :
  (n < length l)%nat -> firstn 1 (skipn n l) = [nth n l d].
Proof.
  revert l. induction n as [|n IH]; intros [|a l] H; simpl in H; try lia.
  - reflexivity.
  - apply IH. lia.
Qed.

Lemma alphabet_slice_digit (d : Z) :
  is_digit d -> base58.alphabet_slice d = [digit_char d].
Proof.
  intros [H0 H58]. unfold base58.alphabet_slice, digit_char.
  apply slice_one. change (length base58.BITCOIN_ALPHABET) with 58%nat. lia.
Qed.

Lemma digit_char_in_alphabet (d : Z) : is_digit d -> base58_char (digit_char d).
Proof.
  intros [H0 H58]. unfold base58_char, digit_char. apply nth_In.
  change (length base58.BITCOIN_ALPHABET) with 58%nat. lia.
Qed.

(** The alphabet has no repeated character: a digit is read back from
    its character. *)
Lemma digit_of_char (d : Z) : is_digit d -> digit_of (digit_char d) = d.
Proof.
  intros [H0 H58].
  assert (Hall : forallb (fun n => digit_of (digit_char (Z.of_nat n))
                                   =? Z.of_nat n) (seq 0 58) = true)
    by (vm_compute; reflexivity).
  rewrite forallb_forall in Hall.
  specialize (Hall (Z.to_nat d)). rewrite Z2Nat.id in Hall by lia.
  apply Z.eqb_eq, Hall, in_seq. lia.
Qed.

Lemma digits_value_snoc (ds : list Z) (d : Z) :
  digits_value (ds ++ [d]) = digits_value ds * 58 + d.
Proof. unfold digits_value. rewrite fold_left_app. reflexivity. Qed.

Lemma digits_value_cons (d : Z) (ds : list Z) :
  digits_value (d :: ds) = d * 58 ^ Z.of_nat (length ds) + digits_value ds.
Proof.
  induction ds as [|e ds IH] using rev_ind.
  - cbn. lia.
  - rewrite app_comm_cons, !digits_value_snoc, IH, length_app, Nat.add_comm.
    cbn [length Nat.add]. rewrite Nat2Z.inj_succ, Z.pow_succ_r by lia. ring.
Qed.

Lemma digits_value_range (ds : list Z) :
  Forall is_digit ds -> 0 <= digits_value ds < 58 ^ Z.of_nat (length ds).
Proof.
  induction ds as [|d ds IH] using rev_ind; intros H.
  - cbn. lia.
  - apply Forall_app in H as [Hds Hd]. inversion Hd as [|? ? [Hd0 Hd58] _]; subst.
    specialize (IH Hds).
    rewrite digits_value_snoc, length_app, Nat.add_comm.
    cbn [length Nat.add]. rewrite Nat2Z.inj_succ, Z.pow_succ_r by lia. lia.
Qed.

(** What the [while] loop of [b58encode_int] leaves: the characters of
    the base-58 digits of [i], without a leading zero, before the
    characters it started from. *)
Lemma encode_loop_digits (i : Z) (string out : list byte) :
  base58.encode_loop i string out -> 0 <= i ->
  exists ds : list Z,
    out = map digit_char ds ++ string
    /\ canonical ds /\ digits_value ds = i.
Proof.
  intros H. induction H as [string|i string out Hne H IH]; intros Hi.
  - exists []. repeat split; [constructor|discriminate].
  - assert (Hq : 0 <= i / 58) by (apply Z.div_pos; lia).
    pose proof (Z.mod_pos_bound i 58 eq_refl) as Hr.
    destruct (IH Hq) as (ds & Hout & [Hdig Hlead] & Hval).
    exists (ds ++ [i mod 58]).
    assert (Hi' : digits_value (ds ++ [i mod 58]) = i).
    { rewrite digits_value_snoc, Hval.
      pose proof (Z.div_mod i 58). lia. }
    split; [|split; [split|exact Hi']].
    + rewrite Hout, alphabet_slice_digit by exact Hr.
      rewrite map_app, <- app_assoc. reflexivity.
    + apply Forall_app. split; [exact Hdig|]. constructor; [exact Hr|constructor].
    + intros d ds' E. destruct ds as [|d0 ds0].
      * cbn in E. injection E as <- <-. cbn in Hval.
        pose proof (Z.div_mod i 58). lia.
      * cbn in E. injection E as <- _. apply (Hlead d0 ds0 eq_refl).
Qed.

Lemma b58encode_int_digits (i : Z) :
  0 <= i ->
  exists ds : list Z,
    base58.b58encode_int i = map digit_char ds
    /\ canonical ds /\ digits_value ds = i.
Proof.
  intros Hi.
  destruct (encode_loop_digits i [] _ (b58encode_int_runs_loop i Hi) Hi)
    as (ds & Hout & Hc & Hv).
  exists ds. rewrite app_nil_r in Hout. auto.
Qed.

Lemma map_digit_char_inj (ds1 ds2 : list Z) :
  Forall is_digit ds1 -> Forall is_digit ds2 ->
  map digit_char ds1 = map digit_char ds2 -> ds1 = ds2.
Proof.
  intros H1 H2 E. apply (f_equal (map digit_of)) in E.
  rewrite !map_map in E.
  rewrite (map_ext_in _ (fun d => d)) in E
    by (intros d Hd; apply digit_of_char; rewrite Forall_forall in H1; auto).
  rewrite (map_ext_in _ (fun d => d) ds2) in E
    by (intros d Hd; apply digit_of_char; rewrite Forall_forall in H2; auto).
  rewrite !map_id in E. exact E.
Qed.

(** Different numbers have different base-58 encodings. *)
Lemma b58encode_int_inj (i j : Z) :
  0 <= i -> 0 <= j ->
  base58.b58encode_int i = base58.b58encode_int j -> i = j.
Proof.
  intros Hi Hj E.
  destruct (b58encode_int_digits i Hi) as (ds1 & E1 & [Hd1 _] & <-).
  destruct (b58encode_int_digits j Hj) as (ds2 & E2 & [Hd2 _] & <-).
  rewrite E1, E2 in E. f_equal. apply map_digit_char_inj; assumption.
Qed.

(** The length and the first digit of a digit list follow from the size
    of the number it writes. *)
Lemma canonical_shape (ds : list Z) (n : nat) (d : Z) :
  canonical ds -> 1 <= d < 58 ->
  d * 58 ^ Z.of_nat n <= digits_value ds < (d + 1) * 58 ^ Z.of_nat n ->
  exists ds' : list Z, ds = d :: ds' /\ length ds' = n.
Proof.
  intros [Hdig Hlead] Hd Hv.
  assert (Hpn : 0 < 58 ^ Z.of_nat n) by (apply Z.pow_pos_nonneg; lia).
  destruct ds as [|z0 t].
  - cbn in Hv. nia.
  - specialize (Hlead z0 t eq_refl).
    inversion Hdig as [|? ? [Hz0 Hz58] Ht]; subst.
    rewrite digits_value_cons in Hv.
    pose proof (digits_value_range t Ht) as Hr.
    set (m := length t) in *.
    assert (Hpm : 0 < 58 ^ Z.of_nat m) by (apply Z.pow_pos_nonneg; lia).
    assert (Hmn : m = n).
    { destruct (Nat.lt_trichotomy m n) as [Hlt|[Heq|Hlt]];
        [exfalso|exact Heq|exfalso].
      - assert (58 * 58 ^ Z.of_nat m <= 58 ^ Z.of_nat n)
          by (rewrite <- Z.pow_succ_r by lia; apply Z.pow_le_mono_r; lia).
        nia.
      - assert (58 * 58 ^ Z.of_nat n <= 58 ^ Z.of_nat m)
          by (rewrite <- Z.pow_succ_r by lia; apply Z.pow_le_mono_r; lia).
        nia. }
    exists t. split; [|exact Hmn]. f_equal. rewrite Hmn in *. nia.
Qed.

(** * The shape of a Base58 encoding *)

Lemma b58encode_headed (b : byte) (r : list byte) :
  b <> x00 ->
  base58.b58encode (b :: r) = base58.b58encode_int (string_to_number (b :: r)).
Proof.
  intros Hb. unfold base58.b58encode.
  assert (E : base58.lstrip_zeros (b :: r) = b :: r)
    by (destruct b; try reflexivity; contradiction).
  rewrite E, Nat.sub_diag. reflexivity.
Qed.

Lemma b58encode_alphabet (v : list byte) :
  Forall base58_char (base58.b58encode v).
Proof.
  unfold base58.b58encode. apply Forall_app. split.
  - generalize (length v - length (base58.lstrip_zeros v))%nat. intros n.
    induction n as [|n IH]; cbn [repeat concat].
    + constructor.
    + apply Forall_app. split; [|exact IH].
      constructor; [|constructor]. left. reflexivity.
  - pose proof (string_to_number_range (base58.lstrip_zeros v)) as [H0 _].
    destruct (b58encode_int_digits _ H0) as (ds & -> & [Hdig _] & _).
    induction Hdig as [|d ds Hd _ IH]; cbn [map].
    + constructor.
    + constructor; [apply digit_char_in_alphabet, Hd|exact IH].
Qed.

Lemma string_of_list_byte_length (bs : list byte) :
  String.length (string_of_list_byte bs) = length bs.
Proof.
  induction bs as [|b bs IH]; [reflexivity|].
  change (string_of_list_byte (b :: bs))
    with (String (ascii_of_byte b) (string_of_list_byte bs)).
  cbn [String.length]. rewrite IH. reflexivity.
Qed.

Lemma app_same_length_inj {A : Type} (a1 a2 b1 b2 : list A) :
  length a1 = length a2 -> a1 ++ b1 = a2 ++ b2 -> a1 = a2 /\ b1 = b2.
Proof.
  revert a2. induction a1 as [|x a1 IH]; intros [|y a2] Hlen E;
    try discriminate Hlen.
  - split; [reflexivity|exact E].
  - cbn in E. injection E as -> E. injection Hlen as Hlen.
    destruct (IH a2 Hlen E) as [-> ->]. split; reflexivity.
Qed.

(** The bytes that [private_key_to_wif] hands to [b58encode]: the
    prefix, the key with its suffix, and four checksum bytes. *)
Lemma private_key_to_wif_bytes (k : list byte) (c : bool) :
  exists checksum : list byte,
    length checksum = 4%nat
    /\ list_byte_of_string (private_key_to_wif k c)
       = base58.b58encode_int
           (string_to_number
              (x80 :: (k ++ (if c then [x01] else [])) ++ checksum)).
Proof.
  exists (double_hash_checksum (wif_payload x80 k c)). split.
  - unfold double_hash_checksum. rewrite length_firstn, sha256_length.
    reflexivity.
  - unfold private_key_to_wif, decode, double_hash_checksum, wif_payload.
    rewrite list_byte_of_string_of_list_byte.
    destruct c; cbn [app]; rewrite ?app_nil_r;
      rewrite b58encode_headed by discriminate; reflexivity.
Qed.

(** * More on the WIF encoder *)

(** Every character of a WIF string is a character of the Base58
    alphabet. *)
Theorem private_key_to_wif_alphabet (k : list byte) (c : bool) :
  Forall base58_char (list_byte_of_string (private_key_to_wif k c)).
Proof.
  unfold private_key_to_wif, decode.
  rewrite list_byte_of_string_of_list_byte. apply b58encode_alphabet.
Qed.

(** Keys of one length with equal WIF strings are the same key, with the
    same compression flag. *)
Theorem private_key_to_wif_injective (k1 k2 : list byte) (c1 c2 : bool) :
  length k1 = length k2 ->
  private_key_to_wif k1 c1 = private_key_to_wif k2 c2 ->
  k1 = k2 /\ c1 = c2.
Proof.
  intros Hlen E. apply (f_equal list_byte_of_string) in E.
  destruct (private_key_to_wif_bytes k1 c1) as (cs1 & Hcs1 & E1).
  destruct (private_key_to_wif_bytes k2 c2) as (cs2 & Hcs2 & E2).
  rewrite E1, E2 in E.
  apply b58encode_int_inj in E; try apply string_to_number_range.
  apply string_to_number_inj_headed in E; [|reflexivity].
  assert (Hl : length (k1 ++ (if c1 then [x01] else []))
               = length (k2 ++ (if c2 then [x01] else []))).
  { apply (f_equal (@length byte)) in E. rewrite !length_app in E.
    rewrite !length_app. lia. }
  apply (app_same_length_inj _ _ _ _ Hl) in E as [E _].
  apply (app_same_length_inj _ _ _ _ Hlen) in E as [-> E].
  split; [reflexivity|]. destruct c1, c2; reflexivity || discriminate E.
Qed.

Lemma wif_number_bounds (r : list byte) :
  128 * 256 ^ Z.of_nat (length r)
  <= string_to_number (x80 :: r)
  < 129 * 256 ^ Z.of_nat (length r).
Proof.
  rewrite string_to_number_cons.
  pose proof (string_to_number_range r) as Hr.
  change (byte_to_Z x80) with 128. lia.
Qed.

(** The WIF string of a 32-byte key has 51 characters and begins with
    [5]; for the compressed form it has 52 and begins with [K] or [L]. *)
Theorem private_key_to_wif_shape (k : list byte) :
  length k = 32%nat ->
  (exists rest : string,
      private_key_to_wif k false = String "5" rest
      /\ String.length rest = 50%nat)
  /\ (exists (c0 : ascii) (rest : string),
        private_key_to_wif k true = String c0 rest
        /\ (c0 = "K"%char \/ c0 = "L"%char)
        /\ String.length rest = 51%nat).
Proof.
  intros Hlen. split.
  - destruct (private_key_to_wif_bytes k false) as (cs & Hcs & E).
    pose proof (wif_number_bounds ((k ++ []) ++ cs)) as Hn.
    pose proof (string_to_number_range (x80 :: (k ++ []) ++ cs)) as [H0 _].
    destruct (b58encode_int_digits _ H0) as (ds & Eds & Hcan & Hv).
    rewrite !length_app, Hlen, Hcs in Hn. cbn [length Nat.add] in Hn.
    destruct (canonical_shape ds 50 4 Hcan) as (ds' & -> & Hds'); [lia| |].
    { rewrite Hv.
      assert (B1 : 4 * 58 ^ Z.of_nat 50 <= 128 * 256 ^ Z.of_nat 36)
        by (apply Z.leb_le; vm_compute; reflexivity).
      assert (B2 : 129 * 256 ^ Z.of_nat 36 <= (4 + 1) * 58 ^ Z.of_nat 50)
        by (apply Z.leb_le; vm_compute; reflexivity).
      revert Hn B1 B2.
      generalize (58 ^ Z.of_nat 50), (256 ^ Z.of_nat 36). intros; lia. }
    rewrite Eds in E. apply (f_equal string_of_list_byte) in E.
    rewrite string_of_list_byte_of_string in E. rewrite E.
    exists (string_of_list_byte (map digit_char ds')). split.
    + reflexivity.
    + rewrite string_of_list_byte_length, length_map. exact Hds'.
  - destruct (private_key_to_wif_bytes k true) as (cs & Hcs & E).
    pose proof (wif_number_bounds ((k ++ [x01]) ++ cs)) as Hn.
    pose proof (string_to_number_range (x80 :: (k ++ [x01]) ++ cs)) as [H0 _].
    destruct (b58encode_int_digits _ H0) as (ds & Eds & Hcan & Hv).
    rewrite !length_app, Hlen, Hcs in Hn. cbn [length Nat.add] in Hn.
    assert (B1 : 18 * 58 ^ Z.of_nat 51 <= 128 * 256 ^ Z.of_nat 37)
      by (apply Z.leb_le; vm_compute; reflexivity).
    assert (B2 : 129 * 256 ^ Z.of_nat 37 <= (19 + 1) * 58 ^ Z.of_nat 51)
      by (apply Z.leb_le; vm_compute; reflexivity).
    rewrite <- Hv in Hn.
    assert (Hd : exists d, (d = 18 \/ d = 19)
                 /\ d * 58 ^ Z.of_nat 51 <= digits_value ds
                    < (d + 1) * 58 ^ Z.of_nat 51).
    { revert Hn B1 B2.
      generalize (58 ^ Z.of_nat 51), (256 ^ Z.of_nat 37), (digits_value ds).
      intros P Q N Hn B1 B2.
      destruct (Z_lt_le_dec N (19 * P)); [exists 18|exists 19]; lia. }
    destruct Hd as (d & Hd & Hb).
    destruct (canonical_shape ds 51 d Hcan) as (ds' & -> & Hds');
      [lia|exact Hb|].
    rewrite Eds in E. apply (f_equal string_of_list_byte) in E.
    rewrite string_of_list_byte_of_string in E. rewrite E.
    exists (ascii_of_byte (digit_char d)),
           (string_of_list_byte (map digit_char ds')).
    split; [reflexivity|split].
    + destruct Hd as [-> | ->]; [left|right]; reflexivity.
    + rewrite string_of_list_byte_length, length_map. exact Hds'.
Qed.

(** * More on the public key deriver *)

Lemma coordinate_round_trip (num : Z) :
  0 <= num < secp256k1.p -> string_to_number (big_endian 32 num) = num.
Proof.
  intros H. apply string_to_number_big_endian.
  pose proof p_below_2_256 as Hp. unfold secp256k1.baselen in Hp. lia.
Qed.

Lemma even_byte_of_Z (v : Z) : Z.even (byte_to_Z (byte_of_Z v)) = Z.even v.
Proof.
  rewrite byte_to_of_Z, !Zeven_mod.
  rewrite Z.mod_mod_divide by (exists 128; reflexivity). reflexivity.
Qed.

Section DeriverOutcome.

Variable generator_mul : Z -> Z * Z.
Hypothesis generator_mul_affine :
  forall secexp : Z,
    1 <= secexp < secp256k1.order -> in_field (generator_mul secexp).

(** [private_key_to_public_key] returns a key for the 32-byte strings
    whose scalar lies from 1 to the order less one, and raises
    [MalformedPointError], never another exception, for every other byte
    string. *)
Theorem private_key_to_public_key_outcome
  (private_key : list byte) (compressed : bool) :
  (length private_key = 32%nat
   /\ 1 <= string_to_number private_key < secp256k1.order
   /\ exists public_key : list byte,
       private_key_to_public_key generator_mul private_key compressed
       = Return public_key)
  \/ ((length private_key <> 32%nat
       \/ string_to_number private_key = 0
       \/ secp256k1.order <= string_to_number private_key)
      /\ private_key_to_public_key generator_mul private_key compressed
         = Raise MalformedPointError).
Proof.
  pose proof (string_to_number_range private_key) as [H0 _].
  destruct (Nat.eq_dec (length private_key) 32) as [Hlen|Hlen].
  - destruct (Z_lt_le_dec (string_to_number private_key) 1) as [Hlo|Hlo];
      [|destruct (Z_lt_le_dec (string_to_number private_key) secp256k1.order)
         as [Hhi|Hhi]].
    + right. split; [lia|].
      unfold private_key_to_public_key.
      rewrite from_string_invalid by lia. reflexivity.
    + left. split; [exact Hlen|split; [lia|]].
      assert (Hk : 1 <= string_to_number private_key < secp256k1.order) by lia.
      rewrite (private_key_to_public_key_valid generator_mul _ compressed
                 Hlen Hk (generator_mul_affine _ Hk)).
      destruct (generator_mul (string_to_number private_key)) as [x y].
      eexists. reflexivity.
    + right. split; [lia|].
      unfold private_key_to_public_key.
      rewrite from_string_invalid by lia. reflexivity.
  - right. split; [left; exact Hlen|].
    unfold private_key_to_public_key, ecdsa.from_string.
    replace (length private_key =? secp256k1.baselen)%nat with false
      by (symmetry; apply Nat.eqb_neq; exact Hlen).
    reflexivity.
Qed.

(** The uncompressed public key of a valid private key is [0x04], X and
    Y, where X and Y are 32 bytes each and read back as the coordinates
    of the point; the compressed key is one byte and the same X. *)
Theorem public_key_carries_point (private_key : list byte) :
  length private_key = 32%nat ->
  1 <= string_to_number private_key < secp256k1.order ->
  exists (X Y : list byte) (prefix : byte),
    private_key_to_public_key generator_mul private_key false
    = Return ([x04] ++ X ++ Y)
    /\ private_key_to_public_key generator_mul private_key true
       = Return (prefix :: X)
    /\ length X = 32%nat /\ length Y = 32%nat
    /\ (string_to_number X, string_to_number Y)
       = generator_mul (string_to_number private_key).
Proof.
  intros Hlen Hk. pose proof (generator_mul_affine _ Hk) as Hf.
  rewrite !(private_key_to_public_key_valid generator_mul _ _ Hlen Hk Hf).
  destruct (generator_mul (string_to_number private_key)) as [x y].
  destruct Hf as [Hx Hy]. cbn [fst snd] in Hx, Hy.
  exists (big_endian 32 x), (big_endian 32 y),
         (if Z.even (y / 256 ^ 31) then x02 else x03).
  rewrite !big_endian_length, !coordinate_round_trip by assumption.
  repeat split.
Qed.

(** The compressed public key is cut from the uncompressed one: its
    bytes 1 to 32, headed by [0x02] when byte 33 of the uncompressed key
    is even and by [0x03] when it is odd. *)
Theorem compressed_from_uncompressed (private_key : list byte) :
  length private_key = 32%nat ->
  1 <= string_to_number private_key < secp256k1.order ->
  exists uncompressed : list byte,
    private_key_to_public_key generator_mul private_key false
    = Return uncompressed
    /\ private_key_to_public_key generator_mul private_key true
       = Return ((if Z.even (byte_to_Z (nth 33 uncompressed x00))
                  then x02 else x03)
                 :: firstn 32 (skipn 1 uncompressed)).
Proof.
  intros Hlen Hk. pose proof (generator_mul_affine _ Hk) as Hf.
  rewrite !(private_key_to_public_key_valid generator_mul _ _ Hlen Hk Hf).
  destruct (generator_mul (string_to_number private_key)) as [x y].
  eexists. split; [reflexivity|].
  cbn [app skipn nth].
  rewrite app_nth2 by (rewrite big_endian_length; lia).
  rewrite big_endian_length, Nat.sub_diag.
  rewrite (nth_error_nth _ _ _ (big_endian_head 31 y)).
  rewrite even_byte_of_Z.
  rewrite firstn_app, big_endian_length, Nat.sub_diag, firstn_O, app_nil_r.
  rewrite firstn_all2 by (rewrite big_endian_length; lia).
  reflexivity.
Qed.

End DeriverOutcome.

(** * A bytearray argument *)

Lemma contents_store_set (st : store) (ref : nat) (bs : list byte) :
  (ref < length st)%nat -> contents (store_set st ref bs) ref = bs.
Proof.
  unfold contents. revert ref.
  induction st as [|o st IH]; intros [|ref] H; cbn in H; try lia.
  - reflexivity.
  - cbn. apply IH. lia.
Qed.

(** A key and the same key with one more [0x01] at its end have
    different compressed WIF strings. *)
Lemma wif_of_grown_key_differs (k : list byte) :
  private_key_to_wif (k ++ [x01]) true <> private_key_to_wif k true.
Proof.
  intros E. apply (f_equal list_byte_of_string) in E.
  destruct (private_key_to_wif_bytes (k ++ [x01]) true) as (cs1 & Hcs1 & E1).
  destruct (private_key_to_wif_bytes k true) as (cs2 & Hcs2 & E2).
  rewrite E1, E2 in E.
  apply b58encode_int_inj in E; try apply string_to_number_range.
  apply string_to_number_inj_headed in E; [|reflexivity].
  apply (f_equal (@length byte)) in E. rewrite !length_app in E.
  cbn [length] in E. lia.
Qed.

(** Called on a [bytearray], [private_key_to_wif] reads the key out of
    it; with [compressed=True] it also appends [0x01] to the caller's
    object, so that a second call on the object returns another string;
    with [compressed=False] it changes nothing. *)
Theorem private_key_to_wif_call_extends_bytearray (ref : nat) (st : store) :
  (ref < length st)%nat ->
  private_key_to_wif_call (Bytearray ref) false st
  = (st, Return (private_key_to_wif (contents st ref) false))
  /\ exists st1 : store,
      private_key_to_wif_call (Bytearray ref) true st
      = (st1, Return (private_key_to_wif (contents st ref) true))
      /\ contents st1 ref = contents st ref ++ [x01]
      /\ exists (st2 : store) (wif2 : string),
          private_key_to_wif_call (Bytearray ref) true st1
          = (st2, Return wif2)
          /\ wif2 <> private_key_to_wif (contents st ref) true.
Proof.
  intros Href. split; [reflexivity|].
  assert (Hlen : forall bs, length (store_set st ref bs) = length st).
  { intros bs. clear Href. revert ref.
    induction st as [|o st' IH]; intros [|ref']; cbn; auto. }
  exists (store_set st ref (contents st ref ++ [x01])).
  assert (Hgrown : contents (store_set st ref (contents st ref ++ [x01])) ref
                   = contents st ref ++ [x01])
    by (apply contents_store_set, Href).
  split; [|split; [exact Hgrown|]].
  - unfold private_key_to_wif_call, iadd_bytes, add_to_bytes.
    cbn [bind]. rewrite Hgrown. reflexivity.
  - set (st1 := store_set st ref (contents st ref ++ [x01])) in *.
    exists (store_set st1 ref (contents st1 ref ++ [x01])),
           (private_key_to_wif (contents st ref ++ [x01]) true).
    split.
    + unfold private_key_to_wif_call, iadd_bytes, add_to_bytes.
      cbn [bind]. rewrite contents_store_set by (unfold st1; rewrite Hlen; exact Href).
      rewrite Hgrown. reflexivity.
    + apply wif_of_grown_key_differs.
Qed.

(** * Witnesses of the further properties *)

Lemma private_key_to_wif_injective_witness :
  key_hex 1 = key_hex 1 /\ true = true.
Proof.
  exact (private_key_to_wif_injective (key_hex 1) (key_hex 1) true true
           eq_refl eq_refl).
Defined.

Lemma private_key_to_wif_shape_witness :
  (exists rest : string,
      private_key_to_wif (key_hex 1) false = String "5" rest
      /\ String.length rest = 50%nat)
  /\ (exists (c0 : ascii) (rest : string),
        private_key_to_wif (key_hex 1) true = String c0 rest
        /\ (c0 = "K"%char \/ c0 = "L"%char)
        /\ String.length rest = 51%nat).
Proof. exact (private_key_to_wif_shape (key_hex 1) eq_refl). Defined.

Lemma private_key_to_public_key_outcome_witness :
  (length (@nil byte) = 32%nat
   /\ 1 <= string_to_number [] < secp256k1.order
   /\ exists public_key : list byte,
       private_key_to_public_key secp256k1.generator_mul [] true
       = Return public_key)
  \/ ((length (@nil byte) <> 32%nat
       \/ string_to_number [] = 0
       \/ secp256k1.order <= string_to_number [])
      /\ private_key_to_public_key secp256k1.generator_mul [] true
         = Raise MalformedPointError).
Proof.
  exact (private_key_to_public_key_outcome secp256k1.generator_mul
           (fun secexp _ => generator_mul_in_field secexp) [] true).
Defined.

Lemma valid_key_4 : 1 <= string_to_number (key_hex 4) < secp256k1.order.
Proof. vm_compute. split; [discriminate|reflexivity]. Defined.

Lemma public_key_carries_point_witness :
  exists (X Y : list byte) (prefix : byte),
    private_key_to_public_key secp256k1.generator_mul (key_hex 4) false
    = Return ([x04] ++ X ++ Y)
    /\ private_key_to_public_key secp256k1.generator_mul (key_hex 4) true
       = Return (prefix :: X)
    /\ length X = 32%nat /\ length Y = 32%nat
    /\ (string_to_number X, string_to_number Y)
       = secp256k1.generator_mul (string_to_number (key_hex 4)).
Proof.
  exact (public_key_carries_point secp256k1.generator_mul
           (fun secexp _ => generator_mul_in_field secexp)
           (key_hex 4) eq_refl valid_key_4).
Defined.

Lemma compressed_from_uncompressed_witness :
  exists uncompressed : list byte,
    private_key_to_public_key secp256k1.generator_mul (key_hex 4) false
    = Return uncompressed
    /\ private_key_to_public_key secp256k1.generator_mul (key_hex 4) true
       = Return ((if Z.even (byte_to_Z (nth 33 uncompressed x00))
                  then x02 else x03)
                 :: firstn 32 (skipn 1 uncompressed)).
Proof.
  exact (compressed_from_uncompressed secp256k1.generator_mul
           (fun secexp _ => generator_mul_in_field secexp)
           (key_hex 4) eq_refl valid_key_4).
Defined.

Lemma no_address_for_either_key_witness :
  (pk <- private_key_to_public_key secp256k1.generator_mul (key_hex 4) true;;
   public_key_to_address (fun _ => hashlib.sha256) pk) = Raise ValueError
  /\ (pk <- private_key_to_public_key secp256k1.generator_mul (key_hex 4) false;;
      public_key_to_address (fun _ => hashlib.sha256) pk) = Raise ValueError.
Proof.
  exact (no_address_for_either_key secp256k1.generator_mul
           (fun _ => hashlib.sha256)
           (fun secexp _ => generator_mul_in_field secexp)
           (key_hex 4) eq_refl valid_key_4).
Defined.

Lemma private_key_to_wif_call_extends_bytearray_witness :
  private_key_to_wif_call (Bytearray 0) false [key_hex 1]
  = ([key_hex 1], Return (private_key_to_wif (contents [key_hex 1] 0) false))
  /\ exists st1 : store,
      private_key_to_wif_call (Bytearray 0) true [key_hex 1]
      = (st1, Return (private_key_to_wif (contents [key_hex 1] 0) true))
      /\ contents st1 0 = contents [key_hex 1] 0 ++ [x01]
      /\ exists (st2 : store) (wif2 : string),
          private_key_to_wif_call (Bytearray 0) true st1
          = (st2, Return wif2)
          /\ wif2 <> private_key_to_wif (contents [key_hex 1] 0) true.
Proof.
  apply (private_key_to_wif_call_extends_bytearray 0 [key_hex 1]).
  cbn. lia.
Defined.
